(** * The task-callback bridge of matrix_sdk_ffi

    Verification of [internal/api/rust/matrix_sdk_ffi/matrix_sdk_ffi.c]:

    <<
    void cgo_rust_task_callback_bridge_matrix_sdk_ffi(RustTaskCallback cb,
        const void * taskData, int8_t status) {
      cb(taskData, status);
    }
    >>

    The function is embedded as an interaction tree: the indirect call
    through [cb] is an event, answered by whatever the pointer designates.
    Three readings of the tree are used below:
    - its shape (which events it contains, in which order);
    - its linking against a table of functions, where the callee is an
      arbitrary tree that may read and write memory, fault or diverge;
    - its execution as one thread of a pool over shared memory, under an
      arbitrary schedule. *)

From Stdlib Require Import ZArith List Lia Bool Eqdep_dec.
From Stdlib Require Import Permutation.
From ITree Require Import ITree ITreeFacts Events.State Events.StateFacts
     Events.Concurrency Props.Leaf Props.Finite.
Import ListNotations ITreeNotations.
Local Open Scope Z_scope.
Local Open Scope itree_scope.

(** * Definitions *)

(** ** Machine integers: [int8_t] *)

Definition int8_min : Z := -128.
Definition int8_max : Z := 127.
Definition int8_modulus : Z := 256.

Definition int8_in_range (z : Z) : bool :=
  (int8_min <=? z) && (z <=? int8_max).

(** A value of C type [int8_t]: an integer of the representable range. *)
Record int8_t : Type :=
  mk_int8 { int8_signed : Z; int8_range : int8_in_range int8_signed = true }.

(** Conversion of an arbitrary integer to [int8_t], wrapping around. *)
Definition int8_wrap (z : Z) : Z := (z + 128) mod int8_modulus - 128.

Lemma int8_wrap_in_range (z : Z) : int8_in_range (int8_wrap z) = true.
Proof.
  unfold int8_in_range, int8_wrap, int8_min, int8_max, int8_modulus.
  pose proof (Z.mod_pos_bound (z + 128) 256 eq_refl).
  apply andb_true_intro; split; apply Z.leb_le; lia.
Qed.

Definition int8_repr (z : Z) : int8_t :=
  mk_int8 (int8_wrap z) (int8_wrap_in_range z).

(** The two's complement byte that represents the value. *)
Definition int8_unsigned (x : int8_t) : Z := int8_signed x mod int8_modulus.

(** The eight bits of the representation, least significant first. *)
Definition int8_bits (x : int8_t) : list bool :=
  List.map (Z.testbit (int8_unsigned x)) [0; 1; 2; 3; 4; 5; 6; 7].

(** ** Pointers *)

(** [const void *]: an address, never interpreted by this file. *)
Definition void_ptr : Type := Z.

Definition NULL : Z := 0.

(** Modelled from the spec: the type [RustTaskCallback] is declared in
    [matrix_sdk_ffi.h], which is not part of the sources at hand. The spec
    gives it as a function pointer whose signature "accepts an opaque
    pointer and a signed 8-bit integer, returns nothing". A function
    pointer is the address of the code it designates. *)
Definition RustTaskCallback : Type := Z.

(** A call through a function pointer: callee and the two arguments. *)
Definition call : Type := (RustTaskCallback * void_ptr * int8_t)%type.

(** ** Effects of C code *)

(** Access to memory through a pointer, one cell at a time. *)
Variant memE : Type -> Type :=
| Load (p : void_ptr) : memE Z
| Store (p : void_ptr) (b : Z) : memE unit.

(** The indirect call [cb(taskData, status)] of a function of type
    [void (const void *, int8_t)]. *)
Variant callE : Type -> Type :=
| CallIndirect (cb : RustTaskCallback) (taskData : void_ptr) (status : int8_t)
  : callE unit.

(** Undefined behaviour: execution has no meaning past this point. *)
Variant ubE : Type -> Type :=
| Undefined : ubE void.

(** What a C function of this translation unit may do by itself. *)
Definition cE : Type -> Type := memE +' callE.

(** ** The bridge *)

Definition cgo_rust_task_callback_bridge_matrix_sdk_ffi
    {E : Type -> Type} `{callE -< E}
    (cb : RustTaskCallback) (taskData : void_ptr) (status : int8_t)
  : itree E unit :=
  trigger (CallIndirect cb taskData status).

(** ** Reading the shape of a tree *)

(** The call a tree starts with, when it starts with one. *)
Definition first_call (t : itree cE unit) : option call :=
  match observe t with
  | VisF (inr1 (CallIndirect cb td st)) _ => Some (cb, td, st)
  | _ => None
  end.

(** ** Memory *)

(** The content of the cell at each address. *)
Definition mem : Type := Z -> Z.

Definition mem_store (m : mem) (p : void_ptr) (b : Z) : mem :=
  fun q => if q =? p then b else m q.

(** ** Linking: what the pointer designates *)

Section Linking.

(** The effects of the functions that may be called back, besides memory
    accesses and undefined behaviour: faults, input and output, ... *)
Variable F : Type -> Type.

Definition worldE : Type -> Type := memE +' (ubE +' F).

(** The body of a function of type [void (const void *, int8_t)]. *)
Definition callee : Type := void_ptr -> int8_t -> itree worldE unit.

(** The functions of the program, by address. No function lives at the
    null address. *)
Record fn_table : Type :=
  mk_fn_table {
    lookup : RustTaskCallback -> option callee;
    lookup_NULL : lookup NULL = None
  }.

Definition undefined {R : Type} : itree worldE R :=
  vis Undefined (fun v : void => match v with end).

(** A call through a pointer runs the function the pointer designates;
    through a pointer that designates none, behaviour is undefined. *)
Definition call_indirect (ft : fn_table) : callE ~> itree worldE :=
  fun _ e =>
    match e with
    | CallIndirect cb taskData status =>
        match lookup ft cb with
        | Some f => f taskData status
        | None => undefined
        end
    end.

Definition mem_passthrough : memE ~> itree worldE :=
  fun _ e => trigger e.

Definition link (ft : fn_table) {R : Type} (t : itree cE R)
  : itree worldE R :=
  interp (case_ mem_passthrough (call_indirect ft)) t.

Definition handle_mem : memE ~> Monads.stateT mem (itree (ubE +' F)) :=
  fun _ e m =>
    match e with
    | Load p => Ret (m, m p)
    | Store p b => Ret (mem_store m p b, tt)
    end.

Definition run_mem {R : Type} (t : itree worldE R) (m : mem)
  : itree (ubE +' F) (mem * R) :=
  interp_state (M := itree (ubE +' F)) (case_ handle_mem pure_state) t m.

End Linking.

Arguments worldE F _ : clear implicits.
Arguments callee F : clear implicits.
Arguments fn_table F : clear implicits.
Arguments mk_fn_table {F} lookup lookup_NULL.
Arguments lookup {F} f cb.
Arguments lookup_NULL {F} f.
Arguments undefined {F R}.
Arguments call_indirect {F} ft [T] e.
Arguments mem_passthrough {F} [T] e.
Arguments link {F} ft {R} t.
Arguments handle_mem {F} [T] e m.
Arguments run_mem {F R} t m.

(** ** A recording callable *)

(** What a callable that records its arguments leaves behind. *)
Variant obsE : Type -> Type :=
| Observed (taskData : void_ptr) (status : int8_t) : obsE unit.

Definition recorder : callee obsE :=
  fun taskData status => trigger (Observed taskData status).

(** Every address but the null one designates the recorder. *)
Definition recording_lookup (cb : RustTaskCallback) : option (callee obsE) :=
  if cb =? NULL then None else Some recorder.

Definition recording_table : fn_table obsE :=
  mk_fn_table recording_lookup eq_refl.

(** A bounded run of a linked program from memory [m]: the records made so
    far, and how the run ended. *)
Variant ending : Type :=
| Returned
| UndefinedBehaviour
| OutOfFuel.

Definition answer_mem {X : Type} (e : memE X) (m : mem) : X * mem :=
  match e in memE X return X * mem with
  | Load p => (m p, m)
  | Store p b => (tt, mem_store m p b)
  end.

Definition answer_obs {X : Type} (e : obsE X)
  : X * (void_ptr * int8_t) :=
  match e in obsE X return X * (void_ptr * int8_t) with
  | Observed taskData status => (tt, (taskData, status))
  end.

Definition answer {X : Type} (e : worldE obsE X) (m : mem)
    (log : list (void_ptr * int8_t))
  : option (X * mem * list (void_ptr * int8_t)) :=
  match e with
  | inl1 a => let (x, m') := answer_mem a m in Some (x, m', log)
  | inr1 (inl1 _) => None
  | inr1 (inr1 o) => let (x, r) := answer_obs o in Some (x, m, log ++ [r])
  end.

Fixpoint exec (fuel : nat) (m : mem) (log : list (void_ptr * int8_t))
    (t : itree (worldE obsE) unit) : list (void_ptr * int8_t) * ending :=
  match fuel with
  | O => (log, OutOfFuel)
  | S fuel' =>
      match observe t with
      | RetF _ => (log, Returned)
      | TauF t' => exec fuel' m log t'
      | VisF e k =>
          match answer e m log with
          | Some (x, m', log') => exec fuel' m' log' (k x)
          | None => (log, UndefinedBehaviour)
          end
      end
  end.

(** ** Threads: a pool over shared memory *)

(** A thread may do what C code does, and may start another thread. *)
Definition threadE : Type -> Type := spawnE cE +' cE.

Definition thread : Type := itree threadE unit.

(** The body of a function that the threads of a pool may call: it may
    read and write the shared memory, have undefined behaviour, go on for
    ever, or return. *)
Definition body : Type := itree (worldE void1) unit.

(** What a thread was seen to do. *)
Variant action : Type :=
| Loaded (p : void_ptr)
| Stored (p : void_ptr) (b : Z)
| Called (c : call)
| Spawned.

(** Where a thread stands: in its own code; inside the function behind
    call [c], of whose body [b] is left, with [k] for what the caller does
    once the function has returned; or stopped for good, because call [c]
    had undefined behaviour. *)
Variant thread_state : Type :=
| Running (t : thread)
| Calling (c : call) (b : body) (k : unit -> thread)
| Faulted (c : call).

(** The pool: its threads, the memory they share, what the code of the
    threads was seen to do ([trace]) and what the functions they called were
    seen to do ([inner]), each with the thread that did it. *)
Record machine : Type :=
  mk_machine {
    threads : list thread_state;
    memory : mem;
    trace : list (nat * action);
    inner : list (nat * action)
  }.

Fixpoint update_nth {A : Type} (i : nat) (x : A) (l : list A) : list A :=
  match l, i with
  | [], _ => []
  | _ :: l', O => x :: l'
  | y :: l', S i' => y :: update_nth i' x l'
  end.

(** One step of a thread: where it stands afterwards, the memory, what its
    own code and what the function it is in were seen to do, and the
    threads it started. *)
Record progress : Type :=
  mk_progress {
    now : thread_state;
    mem_now : mem;
    seen : list action;
    seen_inside : list action;
    started : list thread
  }.

Definition perform_spawn {X : Type} (e : spawnE cE X) : X * list thread :=
  match e in spawnE _ X return X * list thread with
  | Spawn u => (tt, [u])
  end.

Definition perform_mem {X : Type} (e : memE X) (m : mem)
  : X * mem * action :=
  match e in memE X return X * mem * action with
  | Load p => (m p, m, Loaded p)
  | Store p b => (tt, mem_store m p b, Stored p b)
  end.

Section Pool.

(** The functions of the program, by address. *)
Variable ft : fn_table void1.

(** The call [cb(taskData, status)] enters the function that [cb]
    designates, which then runs on the calling thread, step by step, while
    the caller waits for its return. Through a pointer that designates no
    function, the call has undefined behaviour. *)
Definition perform_call {X : Type} (e : callE X) (k : X -> thread)
  : call * thread_state :=
  match e in callE X return (X -> thread) -> call * thread_state with
  | CallIndirect cb taskData status =>
      fun k =>
        let c := (cb, taskData, status) in
        (c, match lookup ft cb with
            | Some f => Calling c (f taskData status) k
            | None => Faulted c
            end)
  end k.

(** A step of a thread in its own code, at event [e]. *)
Definition advance_own {X : Type} (e : threadE X) (k : X -> thread) (m : mem)
  : progress :=
  match e with
  | inl1 s =>
      let (x, new) := perform_spawn s in
      mk_progress (Running (k x)) m [Spawned] [] new
  | inr1 (inl1 a) =>
      let '(x, m', act) := perform_mem a m in
      mk_progress (Running (k x)) m' [act] [] []
  | inr1 (inr1 c) =>
      let (c', ts) := perform_call c k in
      mk_progress ts m [Called c'] [] []
  end.

(** A step of a thread inside the function behind call [c], at event [e]
    of the body of that function. *)
Definition advance_inside {X : Type} (c : call) (e : worldE void1 X)
    (kb : X -> body) (k : unit -> thread) (m : mem) : progress :=
  match e with
  | inl1 a =>
      let '(x, m', act) := perform_mem a m in
      mk_progress (Calling c (kb x) k) m' [] [act] []
  | inr1 (inl1 _) => mk_progress (Faulted c) m [] [] []
  | inr1 (inr1 v) => match v with end
  end.

Definition advance (ts : thread_state) (m : mem) : progress :=
  match ts with
  | Running t =>
      match observe t with
      | RetF _ => mk_progress ts m [] [] []
      | TauF t' => mk_progress (Running t') m [] [] []
      | VisF e k => advance_own e k m
      end
  | Calling c b k =>
      match observe b with
      | RetF _ => mk_progress (Running (k tt)) m [] [] []
      | TauF b' => mk_progress (Calling c b' k) m [] [] []
      | VisF e kb => advance_inside c e kb k m
      end
  | Faulted _ => mk_progress ts m [] [] []
  end.

(** Thread [i] takes one step, when it exists. *)
Definition step (i : nat) (s : machine) : machine :=
  match nth_error (threads s) i with
  | None => s
  | Some ts =>
      let p := advance ts (memory s) in
      mk_machine
        (update_nth i (now p) (threads s) ++ List.map Running (started p))
        (mem_now p)
        (trace s ++ List.map (pair i) (seen p))
        (inner s ++ List.map (pair i) (seen_inside p))
  end.

(** A schedule names the thread that steps next, again and again. A
    thread that has stopped in undefined behaviour stands still while the
    others go on; the program stopping as a whole at that point is the
    schedule ending there. *)
Fixpoint run (schedule : list nat) (s : machine) : machine :=
  match schedule with
  | [] => s
  | i :: schedule' => run schedule' (step i s)
  end.

End Pool.

(** One thread for each invocation of the bridge. *)
Definition invoke (c : call) : thread :=
  let '(cb, taskData, status) := c in
  cgo_rust_task_callback_bridge_matrix_sdk_ffi cb taskData status.

Definition boot (invocations : list call) (m : mem) : machine :=
  mk_machine (List.map (fun c => Running (invoke c)) invocations) m [] [].

(** A thread has returned when it is in its own code and has none left. *)
Definition returned (ts : thread_state) : bool :=
  match ts with
  | Running t =>
      match observe t with
      | RetF _ => true
      | _ => false
      end
  | _ => false
  end.

Definition by_thread (i : nat) (tr : list (nat * action)) : list action :=
  List.map snd (filter (fun e => Nat.eqb (fst e) i) tr).

Definition scheduled (i : nat) (schedule : list nat) : bool :=
  existsb (Nat.eqb i) schedule.

(** How often a schedule names thread [i]. *)
Definition turns (i : nat) (schedule : list nat) : nat :=
  count_occ Nat.eq_dec schedule i.

(** The memory that the actions on record leave behind. *)
Definition replay (tr : list (nat * action)) (m : mem) : mem :=
  fold_left
    (fun m e => match snd e with Stored p b => mem_store m p b | _ => m end)
    tr m.

(** The pool after the invocations were started together, one thread each,
    and stepped along a schedule. *)
Definition concurrently (ft : fn_table void1) (invocations : list call)
    (m : mem) (schedule : list nat) : machine :=
  run ft schedule (boot invocations m).

(** [within t r]: [r] is what is left of body [t] after some steps. *)
Inductive within (t : body) : body -> Prop :=
| within_here : within t t
| within_tau (r r' : body) :
    within t r -> observe r = TauF r' -> within t r'
| within_mem (r : body) (X : Type) (e : memE X) (kb : X -> body) (x : X) :
    within t r -> observe r = VisF (inl1 e) kb -> within t (kb x).

(** A body that can be stepped to undefined behaviour. *)
Definition faults (t : body) : Prop :=
  exists (r : body) (kb : void -> body),
    within t r /\ observe r = VisF (inr1 (inl1 Undefined)) kb.

(** A body that returns within [n] steps, whatever it reads from memory. *)
Inductive returns_within : nat -> body -> Prop :=
| returns_now (n : nat) (b : body) :
    observe b = RetF tt -> returns_within n b
| returns_after_tau (n : nat) (b b' : body) :
    observe b = TauF b' -> returns_within n b' -> returns_within (S n) b
| returns_after_mem (n : nat) (b : body) (X : Type) (e : memE X)
    (kb : X -> body) :
    observe b = VisF (inl1 e) kb ->
    (forall x, returns_within n (kb x)) ->
    returns_within (S n) b.

(** Where the thread of the invocation [cb(taskData, status)] of the
    bridge can stand: before its first step it has still to call the
    bridge; after it, it is inside the function that [cb] designates, at
    what is left of the body of that function applied to
    [(taskData, status)], with nothing to do after the return but to return
    itself; or it has stopped in undefined behaviour, [cb] designating no
    function or the function having undefined behaviour; or it has
    returned, which takes a function that returns. *)
Inductive bridge_phase (ft : fn_table void1) (cb : RustTaskCallback)
    (taskData : void_ptr) (status : int8_t) : bool -> thread_state -> Prop :=
| phase_pending :
    bridge_phase ft cb taskData status false
      (Running (cgo_rust_task_callback_bridge_matrix_sdk_ffi
                  cb taskData status))
| phase_calling (f : callee void1) (b : body) :
    lookup ft cb = Some f ->
    within (f taskData status) b ->
    bridge_phase ft cb taskData status true
      (Calling (cb, taskData, status) b (fun x => Ret x))
| phase_faulted :
    lookup ft cb = None
    \/ (exists f, lookup ft cb = Some f /\ faults (f taskData status)) ->
    bridge_phase ft cb taskData status true (Faulted (cb, taskData, status))
| phase_returned (f : callee void1) :
    lookup ft cb = Some f ->
    Leaf tt (f taskData status) ->
    bridge_phase ft cb taskData status true (Running (Ret tt)).

(** What holds of a pool of invocations after schedule [s], started from
    memory [m0]. *)
Record pool_inv (ft : fn_table void1) (invocations : list call)
    (m0 : mem) (s : list nat) (st : machine) : Prop :=
  mk_pool_inv {
    inv_length : length (threads st) = length invocations;
    inv_thread : forall i cb taskData status,
        nth_error invocations i = Some (cb, taskData, status) ->
        exists ts,
          nth_error (threads st) i = Some ts
          /\ bridge_phase ft cb taskData status (scheduled i s) ts;
    inv_trace : forall i c,
        nth_error invocations i = Some c ->
        by_thread i (trace st) = if scheduled i s then [Called c] else [];
    inv_owner : forall j a,
        In (j, a) (trace st) ->
        exists c, nth_error invocations j = Some c /\ a = Called c;
    inv_inner : forall j a,
        In (j, a) (inner st) ->
        exists cb taskData status f,
          nth_error invocations j = Some (cb, taskData, status)
          /\ lookup ft cb = Some f
          /\ In (j, Called (cb, taskData, status)) (trace st);
    inv_memory : memory st = replay (inner st) m0
  }.

(** Every address but the null one designates [f]. *)
Definition table_of (f : callee void1) : fn_table void1 :=
  mk_fn_table (fun cb => if cb =? NULL then None else Some f) eq_refl.

(** A callable that writes the status byte to the cell that its context
    points to and then to the next cell. *)
Definition writer : callee void1 :=
  fun taskData status =>
    trigger (Store taskData (int8_unsigned status));;
    trigger (Store (taskData + 1) (int8_unsigned status)).

(** A callable that never returns. *)
Definition stuck : callee void1 := fun _ _ => ITree.spin.

(** For contrast only, and no part of the program: a bridge that parks the
    context in a static cell [slot] and reads it back for the call. *)
Definition parking_bridge (slot : void_ptr) (c : call) : thread :=
  let '(cb, taskData, status) := c in
  trigger (Store slot taskData);;
  p <- trigger (Load slot);;
  trigger (CallIndirect cb p status).

(** ** Callers *)

(** A caller that invokes the bridge once for each call of a list, in
    order, on one thread. *)
Fixpoint invoke_all (cs : list call) : itree cE unit :=
  match cs with
  | [] => Ret tt
  | (cb, taskData, status) :: cs' =>
      cgo_rust_task_callback_bridge_matrix_sdk_ffi cb taskData status;;
      invoke_all cs'
  end.

(** The functions that a list of calls designates, run one after the
    other, up to the first pointer that designates none. *)
Fixpoint callees_of {F : Type -> Type} (ft : fn_table F) (cs : list call)
  : itree (worldE F) unit :=
  match cs with
  | [] => Ret tt
  | (cb, taskData, status) :: cs' =>
      match lookup ft cb with
      | Some f => f taskData status;; callees_of ft cs'
      | None => undefined
      end
  end.

(** The arguments of a list of calls, as a recording callable notes them. *)
Definition records_of (cs : list call) : list (void_ptr * int8_t) :=
  List.map (fun c : call => (snd (fst c), snd c)) cs.

(** The calls of a list of invocations with the threads that make them. *)
Definition calls_expected (invocations : list call) : list (nat * action) :=
  combine (seq 0 (length invocations)) (List.map Called invocations).

(** * Properties *)

(** ** [int8_t] *)

Lemma int8_eq (x y : int8_t) : int8_signed x = int8_signed y -> x = y.
Proof.
  destruct x as [x Hx], y as [y Hy]; cbn; intros ->.
  f_equal. apply UIP_dec, bool_dec.
Qed.

Lemma int8_signed_range (x : int8_t) :
  int8_min <= int8_signed x <= int8_max.
Proof.
  destruct x as [x Hx]; cbn.
  apply andb_prop in Hx as [Hlo Hhi].
  apply Z.leb_le in Hlo, Hhi. lia.
Qed.

Lemma int8_wrap_small (z : Z) :
  int8_min <= z <= int8_max -> int8_wrap z = z.
Proof.
  unfold int8_min, int8_max, int8_wrap, int8_modulus; intros Hz.
  rewrite Z.mod_small; lia.
Qed.

Lemma int8_signed_repr (z : Z) :
  int8_min <= z <= int8_max -> int8_signed (int8_repr z) = z.
Proof. apply int8_wrap_small. Qed.

Lemma int8_repr_signed (x : int8_t) : int8_repr (int8_signed x) = x.
Proof. apply int8_eq, int8_signed_repr, int8_signed_range. Qed.

(** ** The bridge, linked *)

Section LinkedBridge.

Context {F : Type -> Type}.
Variable ft : fn_table F.
Variables (cb : RustTaskCallback) (taskData : void_ptr) (status : int8_t).

Lemma link_bridge :
  link ft (cgo_rust_task_callback_bridge_matrix_sdk_ffi cb taskData status)
  ≈ call_indirect ft (CallIndirect cb taskData status).
Proof.
  unfold link, cgo_rust_task_callback_bridge_matrix_sdk_ffi.
  rewrite interp_trigger. reflexivity.
Qed.

Lemma link_bridge_valid (f : callee F) :
  lookup ft cb = Some f ->
  link ft (cgo_rust_task_callback_bridge_matrix_sdk_ffi cb taskData status)
  ≈ f taskData status.
Proof.
  intros Hf. rewrite link_bridge. cbn. rewrite Hf. reflexivity.
Qed.

Lemma link_bridge_invalid :
  lookup ft cb = None ->
  link ft (cgo_rust_task_callback_bridge_matrix_sdk_ffi cb taskData status)
  ≈ undefined.
Proof.
  intros Hf. rewrite link_bridge. cbn. rewrite Hf. reflexivity.
Qed.

Lemma run_mem_link_bridge (f : callee F) (m : mem) :
  lookup ft cb = Some f ->
  run_mem
    (link ft (cgo_rust_task_callback_bridge_matrix_sdk_ffi cb taskData status))
    m
  ≈ run_mem (f taskData status) m.
Proof.
  intros Hf. unfold run_mem.
  rewrite (link_bridge_valid f Hf). reflexivity.
Qed.

End LinkedBridge.

Lemma recording_lookup_valid (cb : RustTaskCallback) :
  cb <> NULL -> lookup recording_table cb = Some recorder.
Proof.
  intros Hcb. cbn. unfold recording_lookup.
  destruct (Z.eqb_spec cb NULL); [contradiction | reflexivity].
Qed.

Lemma exec_recorder (ft : fn_table obsE) cb taskData status m log fuel :
  lookup ft cb = Some recorder ->
  exec (S (S (S fuel))) m log
       (link ft (cgo_rust_task_callback_bridge_matrix_sdk_ffi cb taskData status))
  = (log ++ [(taskData, status)], Returned).
Proof.
  intros Hf. lazy -[lookup app]. rewrite Hf. reflexivity.
Qed.

Lemma exec_invalid (ft : fn_table obsE) cb taskData status m log fuel :
  lookup ft cb = None ->
  exec (S fuel) m log
       (link ft (cgo_rust_task_callback_bridge_matrix_sdk_ffi cb taskData status))
  = (log, UndefinedBehaviour).
Proof.
  intros Hf. lazy -[lookup app]. rewrite Hf. reflexivity.
Qed.

(** ** Claims on the linked bridge *)

(** C1. For every non-null callback pointer [cb], every context pointer
    [taskData] and every signed 8-bit [status], the call of the bridge
    invokes [cb] exactly once, with exactly the arguments
    [(taskData, status)], and invokes nothing else: the body of the bridge
    is this one call followed by the return; a recording callable has
    exactly one more record afterwards, [(taskData, status)]; and whatever
    function [cb] designates, the linked bridge behaves as one run of that
    function on [(taskData, status)]. *)
Theorem bridge_invokes_callback_once
    (cb : RustTaskCallback) (taskData : void_ptr) (status : int8_t) :
  cb <> NULL ->
  observe (cgo_rust_task_callback_bridge_matrix_sdk_ffi (E := cE)
             cb taskData status)
  = VisF (inr1 (CallIndirect cb taskData status)) (fun x => Ret x)
  /\ (forall m log fuel,
        exec (S (S (S fuel))) m log
             (link recording_table
                (cgo_rust_task_callback_bridge_matrix_sdk_ffi
                   cb taskData status))
        = (log ++ [(taskData, status)], Returned))
  /\ (forall (F : Type -> Type) (ft : fn_table F) (f : callee F),
        lookup ft cb = Some f ->
        link ft (cgo_rust_task_callback_bridge_matrix_sdk_ffi
                   cb taskData status)
        ≈ f taskData status).
Proof.
  intros Hcb. split; [reflexivity | split].
  - intros m log fuel.
    apply exec_recorder, recording_lookup_valid, Hcb.
  - intros F ft f Hf. now apply link_bridge_valid.
Qed.

(** The scenario of the spec: a recording callable, context [0x1000] and
    status [-1]. *)
Lemma bridge_invokes_callback_once_witness :
  0x2000 <> NULL
  /\ exec 3 (fun _ => 0) []
          (link recording_table
             (cgo_rust_task_callback_bridge_matrix_sdk_ffi
                0x2000 0x1000 (int8_repr (-1))))
     = ([(0x1000, int8_repr (-1))], Returned).
Proof.
  assert (H : 0x2000 <> NULL) by discriminate.
  split; [exact H |].
  exact (proj1 (proj2 (bridge_invokes_callback_once
                         0x2000 0x1000 (int8_repr (-1)) H))
               (fun _ => 0) [] O).
Defined.

(** C2. For every value of the signed 8-bit status, the minimum -128 and
    the maximum 127 included, the status that the invoked callback observes
    is the status supplied to the bridge: the same value of the same range,
    with the same eight bits. *)
Theorem bridge_status_unmodified
    (cb : RustTaskCallback) (taskData : void_ptr) (z : Z) (m : mem) :
  cb <> NULL ->
  int8_min <= z <= int8_max ->
  exists observed : int8_t,
    fst (exec 3 m []
           (link recording_table
              (cgo_rust_task_callback_bridge_matrix_sdk_ffi
                 cb taskData (int8_repr z))))
    = [(taskData, observed)]
    /\ int8_signed observed = z
    /\ int8_bits observed
       = List.map (Z.testbit (z mod int8_modulus)) [0; 1; 2; 3; 4; 5; 6; 7].
Proof.
  intros Hcb Hz. exists (int8_repr z). split; [| split].
  - rewrite (exec_recorder recording_table cb taskData (int8_repr z) m [] O);
      [reflexivity | now apply recording_lookup_valid].
  - now apply int8_signed_repr.
  - unfold int8_bits, int8_unsigned. now rewrite int8_signed_repr.
Qed.

Lemma bridge_status_unmodified_witness :
  (0x2000 <> NULL /\ int8_min <= -128 <= int8_max
   /\ int8_min <= 127 <= int8_max)
  /\ (exists observed : int8_t,
        fst (exec 3 (fun _ => 0) []
               (link recording_table
                  (cgo_rust_task_callback_bridge_matrix_sdk_ffi
                     0x2000 0x1000 (int8_repr (-128)))))
        = [(0x1000, observed)]
        /\ int8_signed observed = -128
        /\ int8_bits observed
           = [false; false; false; false; false; false; false; true])
  /\ (exists observed : int8_t,
        fst (exec 3 (fun _ => 0) []
               (link recording_table
                  (cgo_rust_task_callback_bridge_matrix_sdk_ffi
                     0x2000 0x1000 (int8_repr 127))))
        = [(0x1000, observed)]
        /\ int8_signed observed = 127
        /\ int8_bits observed
           = [true; true; true; true; true; true; true; false]).
Proof.
  assert (H : 0x2000 <> NULL) by discriminate.
  assert (Hlo : int8_min <= -128 <= int8_max) by (unfold int8_min, int8_max; lia).
  assert (Hhi : int8_min <= 127 <= int8_max) by (unfold int8_min, int8_max; lia).
  split; [auto | split].
  - exact (bridge_status_unmodified 0x2000 0x1000 (-128) (fun _ => 0) H Hlo).
  - exact (bridge_status_unmodified 0x2000 0x1000 127 (fun _ => 0) H Hhi).
Defined.

(** C3. The context is forwarded as an opaque value. The pointer handed to
    the callback is the pointer passed in; the first and only thing the
    bridge does is the call, so it accesses no memory before it and none
    after it; and from every memory [m], running the linked bridge is
    running the callee on [(taskData, status)] from [m]: the callee finds
    the memory as the caller of the bridge left it, and the caller finds it
    as the callee left it. *)
Theorem bridge_context_opaque
    (F : Type -> Type) (ft : fn_table F) (f : callee F)
    (cb : RustTaskCallback) (taskData : void_ptr) (status : int8_t) :
  lookup ft cb = Some f ->
  first_call (cgo_rust_task_callback_bridge_matrix_sdk_ffi cb taskData status)
  = Some (cb, taskData, status)
  /\ observe (cgo_rust_task_callback_bridge_matrix_sdk_ffi (E := cE)
                cb taskData status)
     = VisF (inr1 (CallIndirect cb taskData status)) (fun x => Ret x)
  /\ (forall m : mem,
        run_mem (link ft (cgo_rust_task_callback_bridge_matrix_sdk_ffi
                            cb taskData status)) m
        ≈ run_mem (f taskData status) m).
Proof.
  intros Hf. split; [reflexivity | split; [reflexivity |]].
  intros m. now apply run_mem_link_bridge.
Qed.

Lemma bridge_context_opaque_witness :
  lookup recording_table 0x2000 = Some recorder
  /\ first_call (cgo_rust_task_callback_bridge_matrix_sdk_ffi
                   0x2000 0x1000 (int8_repr (-1)))
     = Some (0x2000, 0x1000, int8_repr (-1))
  /\ run_mem (link recording_table
                (cgo_rust_task_callback_bridge_matrix_sdk_ffi
                   0x2000 0x1000 (int8_repr (-1)))) (fun _ => 0)
     ≈ run_mem (recorder 0x1000 (int8_repr (-1))) (fun _ => 0).
Proof.
  pose proof (bridge_context_opaque obsE recording_table recorder
                0x2000 0x1000 (int8_repr (-1)) eq_refl) as [H1 [_ H3]].
  split; [reflexivity | split; [exact H1 | exact (H3 (fun _ => 0))]].
Defined.

(** C5. The bridge checks nothing about the callback pointer. With a
    pointer that designates no function, the null pointer among them, the
    call is still the first thing the bridge does, and the behaviour of the
    linked bridge is undefined at that call: nothing is recorded and no
    error is reported in its place. *)
Theorem bridge_no_defensive_check
    (F : Type -> Type) (ft : fn_table F)
    (cb : RustTaskCallback) (taskData : void_ptr) (status : int8_t) :
  lookup ft cb = None ->
  first_call (cgo_rust_task_callback_bridge_matrix_sdk_ffi cb taskData status)
  = Some (cb, taskData, status)
  /\ link ft (cgo_rust_task_callback_bridge_matrix_sdk_ffi cb taskData status)
     ≈ undefined
  /\ link ft (cgo_rust_task_callback_bridge_matrix_sdk_ffi
                NULL taskData status)
     ≈ undefined
  /\ (forall m log fuel,
        exec (S fuel) m log
             (link recording_table
                (cgo_rust_task_callback_bridge_matrix_sdk_ffi
                   NULL taskData status))
        = (log, UndefinedBehaviour)).
Proof.
  intros Hf. split; [reflexivity | split; [| split]].
  - now apply link_bridge_invalid.
  - apply link_bridge_invalid, lookup_NULL.
  - intros m log fuel. now apply exec_invalid.
Qed.

Lemma bridge_no_defensive_check_witness :
  lookup recording_table NULL = None
  /\ link recording_table
          (cgo_rust_task_callback_bridge_matrix_sdk_ffi
             NULL 0x1000 (int8_repr (-1)))
     ≈ undefined
  /\ exec 3 (fun _ => 0) []
          (link recording_table
             (cgo_rust_task_callback_bridge_matrix_sdk_ffi
                NULL 0x1000 (int8_repr (-1))))
     = ([], UndefinedBehaviour).
Proof.
  pose proof (bridge_no_defensive_check obsE recording_table
                NULL 0x1000 (int8_repr (-1)) eq_refl) as [_ [H2 [_ H4]]].
  split; [reflexivity | split; [exact H2 | exact (H4 (fun _ => 0) [] 2%nat)]].
Defined.



(** C7. With the null pointer as context and status 0, the callback is
    invoked with the null pointer and 0, and with nothing put in their
    place. *)
Theorem bridge_null_context_zero_status (cb : RustTaskCallback) :
  cb <> NULL ->
  first_call (cgo_rust_task_callback_bridge_matrix_sdk_ffi
                cb NULL (int8_repr 0))
  = Some (cb, NULL, int8_repr 0)
  /\ int8_signed (int8_repr 0) = 0
  /\ (forall m log fuel,
        exec (S (S (S fuel))) m log
             (link recording_table
                (cgo_rust_task_callback_bridge_matrix_sdk_ffi
                   cb NULL (int8_repr 0)))
        = (log ++ [(NULL, int8_repr 0)], Returned))
  /\ link recording_table
          (cgo_rust_task_callback_bridge_matrix_sdk_ffi cb NULL (int8_repr 0))
     ≈ trigger (Observed NULL (int8_repr 0)).
Proof.
  intros Hcb. split; [reflexivity | split; [reflexivity | split]].
  - intros m log fuel.
    apply exec_recorder, recording_lookup_valid, Hcb.
  - apply (link_bridge_valid recording_table cb NULL (int8_repr 0) recorder).
    apply recording_lookup_valid, Hcb.
Qed.

Lemma bridge_null_context_zero_status_witness :
  0x2000 <> NULL
  /\ exec 3 (fun _ => 0) []
          (link recording_table
             (cgo_rust_task_callback_bridge_matrix_sdk_ffi
                0x2000 NULL (int8_repr 0)))
     = ([(0, int8_repr 0)], Returned).
Proof.
  assert (H : 0x2000 <> NULL) by discriminate.
  split; [exact H |].
  exact (proj1 (proj2 (proj2 (bridge_null_context_zero_status 0x2000 H)))
               (fun _ => 0) [] O).
Defined.

(** C10. The bridge terminates provided the callback does. Its own body has
    only finite branches: one call, then the return. Linked against the
    function that [cb] designates, it returns exactly when that function
    returns on [(taskData, status)], every one of its runs is finite when
    every run of that function is, and a bounded run against a recording
    callable returns within three steps. *)
Theorem bridge_terminates
    (F : Type -> Type) (ft : fn_table F) (f : callee F)
    (cb : RustTaskCallback) (taskData : void_ptr) (status : int8_t) :
  lookup ft cb = Some f ->
  all_finite (cgo_rust_task_callback_bridge_matrix_sdk_ffi (E := cE)
                cb taskData status)
  /\ (Leaf tt (link ft (cgo_rust_task_callback_bridge_matrix_sdk_ffi
                          cb taskData status))
      <-> Leaf tt (f taskData status))
  /\ (all_finite (link ft (cgo_rust_task_callback_bridge_matrix_sdk_ffi
                             cb taskData status))
      <-> all_finite (f taskData status)).
Proof.
  intros Hf.
  pose proof (link_bridge_valid ft cb taskData status f Hf) as Hlink.
  split; [apply all_finite_trigger | split].
  - now rewrite Hlink.
  - now rewrite Hlink.
Qed.

Lemma bridge_terminates_witness :
  lookup recording_table 0x2000 = Some recorder
  /\ Leaf tt (link recording_table
                (cgo_rust_task_callback_bridge_matrix_sdk_ffi
                   0x2000 0x1000 (int8_repr (-1)))).
Proof.
  split; [reflexivity |].
  apply (proj1 (proj2 (bridge_terminates obsE recording_table recorder
                         0x2000 0x1000 (int8_repr (-1)) eq_refl))).
  apply Leaf_Vis with (x := tt), Leaf_Ret.
Defined.

(** ** The bridge in a pool of threads *)

Lemma length_update_nth {A : Type} (i : nat) (x : A) (l : list A) :
  length (update_nth i x l) = length l.
Proof.
  revert i; induction l as [| y l IH]; intros [| i]; cbn; auto.
Qed.

Lemma nth_error_update_nth_same {A : Type} (i : nat) (x y : A) (l : list A) :
  nth_error l i = Some y -> nth_error (update_nth i x l) i = Some x.
Proof.
  revert i; induction l as [| z l IH]; intros [| i]; cbn; auto; discriminate.
Qed.

Lemma nth_error_update_nth_other {A : Type} (i j : nat) (x : A) (l : list A) :
  i <> j -> nth_error (update_nth i x l) j = nth_error l j.
Proof.
  revert i j; induction l as [| z l IH]; intros [| i] [| j] Hij; cbn; auto.
  contradiction.
Qed.

Lemma update_nth_id {A : Type} (i : nat) (x : A) (l : list A) :
  nth_error l i = Some x -> update_nth i x l = l.
Proof.
  revert i; induction l as [| z l IH]; intros [| i]; cbn; auto.
  - congruence.
  - intros Hi. f_equal. auto.
Qed.

Lemma by_thread_app (i : nat) (tr1 tr2 : list (nat * action)) :
  by_thread i (tr1 ++ tr2) = by_thread i tr1 ++ by_thread i tr2.
Proof.
  unfold by_thread. now rewrite filter_app, map_app.
Qed.

Lemma by_thread_own (i : nat) (l : list action) :
  by_thread i (List.map (pair i) l) = l.
Proof.
  unfold by_thread. induction l as [| a l IH]; cbn; [reflexivity |].
  rewrite Nat.eqb_refl. cbn. now f_equal.
Qed.

Lemma by_thread_foreign (i j : nat) (l : list action) :
  i <> j -> by_thread i (List.map (pair j) l) = [].
Proof.
  intros Hij. unfold by_thread. induction l as [| a l IH]; cbn; [reflexivity |].
  destruct (Nat.eqb_spec j i); [congruence | exact IH].
Qed.

Lemma in_by_thread (i : nat) (a : action) (tr : list (nat * action)) :
  In a (by_thread i tr) <-> In (i, a) tr.
Proof.
  unfold by_thread. rewrite in_map_iff. split.
  - intros [[j b] [Hb Hin]]. cbn in Hb; subst b.
    apply filter_In in Hin as [Hin Hj]. cbn in Hj.
    apply Nat.eqb_eq in Hj. now subst j.
  - intros Hin. exists (i, a). split; [reflexivity |].
    apply filter_In. split; [assumption |]. cbn. apply Nat.eqb_refl.
Qed.

Lemma scheduled_app (i : nat) (s1 s2 : list nat) :
  scheduled i (s1 ++ s2) = scheduled i s1 || scheduled i s2.
Proof. apply existsb_app. Qed.

Lemma scheduled_snoc_other (i j : nat) (s : list nat) :
  i <> j -> scheduled i (s ++ [j]) = scheduled i s.
Proof.
  intros Hij. rewrite scheduled_app. cbn.
  destruct (Nat.eqb_spec i j); [contradiction |].
  now rewrite !orb_false_r.
Qed.

Lemma scheduled_snoc_same (j : nat) (s : list nat) :
  scheduled j (s ++ [j]) = true.
Proof.
  rewrite scheduled_app. cbn. rewrite Nat.eqb_refl.
  now rewrite orb_true_r.
Qed.

Lemma run_app ft (s1 s2 : list nat) (st : machine) :
  run ft (s1 ++ s2) st = run ft s2 (run ft s1 st).
Proof.
  revert st; induction s1 as [| i s1 IH]; intros st; cbn; auto.
Qed.

Lemma replay_app (tr1 tr2 : list (nat * action)) (m : mem) :
  replay (tr1 ++ tr2) m = replay tr2 (replay tr1 m).
Proof. apply fold_left_app. Qed.

Lemma within_Leaf (t r : body) :
  within t r -> Leaf tt r -> Leaf tt t.
Proof.
  induction 1 as [| r r' Hw IH Hobs | r X e kb x Hw IH Hobs]; intros Hleaf.
  - exact Hleaf.
  - apply IH. eapply LeafTau; eauto.
  - apply IH. eapply LeafVis; eauto.
Qed.

Section PoolSteps.

Variable ft : fn_table void1.

Lemma step_absent (j : nat) (st : machine) :
  nth_error (threads st) j = None -> step ft j st = st.
Proof.
  intros Hj. unfold step. now rewrite Hj.
Qed.

Lemma step_present (j : nat) (ts : thread_state) (st : machine) :
  nth_error (threads st) j = Some ts ->
  step ft j st
  = mk_machine
      (update_nth j (now (advance ft ts (memory st))) (threads st)
       ++ List.map Running (started (advance ft ts (memory st))))
      (mem_now (advance ft ts (memory st)))
      (trace st ++ List.map (pair j) (seen (advance ft ts (memory st))))
      (inner st
       ++ List.map (pair j) (seen_inside (advance ft ts (memory st)))).
Proof.
  intros Hj. unfold step. now rewrite Hj.
Qed.

Lemma step_stay (j : nat) (ts : thread_state) (st : machine) :
  nth_error (threads st) j = Some ts ->
  advance ft ts (memory st) = mk_progress ts (memory st) [] [] [] ->
  step ft j st = st.
Proof.
  intros Hj Hadv. rewrite (step_present j ts st Hj), Hadv. cbn.
  rewrite !app_nil_r, (update_nth_id j ts _ Hj). now destruct st.
Qed.

Lemma step_self (i : nat) (ts : thread_state) (st : machine) :
  nth_error (threads st) i = Some ts ->
  nth_error (threads (step ft i st)) i
  = Some (now (advance ft ts (memory st))).
Proof.
  intros Hi. rewrite (step_present i ts st Hi). cbn.
  rewrite nth_error_app1.
  - now apply nth_error_update_nth_same with (y := ts).
  - rewrite length_update_nth. apply nth_error_Some.
    intros Hnone. discriminate (eq_trans (eq_sym Hi) Hnone).
Qed.

Lemma step_other (i j : nat) (ts : thread_state) (st : machine) :
  i <> j ->
  nth_error (threads st) i = Some ts ->
  nth_error (threads (step ft j st)) i = Some ts
  /\ by_thread i (trace (step ft j st)) = by_thread i (trace st).
Proof.
  intros Hij Hi.
  destruct (nth_error (threads st) j) as [u |] eqn:Hj.
  - rewrite (step_present j u st Hj). cbn [threads trace]. split.
    + rewrite nth_error_app1.
      * rewrite nth_error_update_nth_other by auto. exact Hi.
      * rewrite length_update_nth. apply nth_error_Some.
        intros Hnone. discriminate (eq_trans (eq_sym Hi) Hnone).
    + rewrite by_thread_app, by_thread_foreign by auto. apply app_nil_r.
  - rewrite (step_absent j st Hj). auto.
Qed.

(** One step of the thread of an invocation of the bridge. *)
Lemma advance_bridge_phase (cb : RustTaskCallback) (taskData : void_ptr)
    (status : int8_t) (ran : bool) (ts : thread_state) (m : mem) (i : nat) :
  bridge_phase ft cb taskData status ran ts ->
  bridge_phase ft cb taskData status true (now (advance ft ts m))
  /\ seen (advance ft ts m)
     = (if ran then [] else [Called (cb, taskData, status)])
  /\ started (advance ft ts m) = []
  /\ mem_now (advance ft ts m)
     = replay (List.map (pair i) (seen_inside (advance ft ts m))) m
  /\ (seen_inside (advance ft ts m) <> [] ->
      ran = true /\ exists f, lookup ft cb = Some f).
Proof.
  intros [| f b Hf Hb | Hbad | f Hf Hleaf].
  - (* about to call the bridge *)
    cbn. destruct (lookup ft cb) as [f |] eqn:Hf; cbn.
    + repeat split; try congruence.
      apply phase_calling with (f := f); [exact Hf | constructor].
    + repeat split; try congruence.
      apply phase_faulted. now left.
  - (* inside the callee *)
    cbn. destruct (observe b) as [r | b' | X e kb] eqn:Hobs; cbn.
    + repeat split; try congruence.
      apply phase_returned with (f := f); [exact Hf |].
      apply (within_Leaf _ b Hb). destruct r.
      now apply LeafRet.
    + repeat split; try congruence.
      apply phase_calling with (f := f); [exact Hf |].
      now apply within_tau with (r := b).
    + destruct e as [a | [u | v]]; cbn.
      * destruct a as [p | p v]; cbn.
        -- repeat split; eauto.
           apply phase_calling with (f := f); [exact Hf |].
           now apply within_mem with (r := b) (e := Load p).
        -- repeat split; eauto.
           apply phase_calling with (f := f); [exact Hf |].
           now apply within_mem with (r := b) (e := Store p v).
      * repeat split; try congruence.
        apply phase_faulted. right. exists f. split; [exact Hf |].
        destruct u. now exists b, kb.
      * destruct v.
  - (* stopped in undefined behaviour *)
    cbn. repeat split; try congruence. now apply phase_faulted.
  - (* returned *)
    cbn. repeat split; try congruence.
    now apply phase_returned with (f := f).
Qed.

End PoolSteps.

Section BridgeThread.

Variable ft : fn_table void1.

(** The thread of an invocation of the bridge, in any pool. *)
Lemma bridge_thread_run (st : machine) (s : list nat) (i : nat)
    (cb : RustTaskCallback) (taskData : void_ptr) (status : int8_t) :
  nth_error (threads st) i
  = Some (Running (cgo_rust_task_callback_bridge_matrix_sdk_ffi
                     cb taskData status)) ->
  (exists ts,
      nth_error (threads (run ft s st)) i = Some ts
      /\ bridge_phase ft cb taskData status (scheduled i s) ts)
  /\ by_thread i (trace (run ft s st))
     = by_thread i (trace st)
       ++ (if scheduled i s then [Called (cb, taskData, status)] else []).
Proof.
  intros Hi. induction s as [| j s [[ts [Hts Hph]] Htr]] using rev_ind.
  - cbn. split; [| now rewrite app_nil_r].
    eexists. split; [exact Hi | constructor].
  - rewrite run_app. cbn [run].
    destruct (Nat.eq_dec i j) as [<- | Hij].
    + rewrite scheduled_snoc_same.
      destruct (advance_bridge_phase ft cb taskData status _ ts
                  (memory (run ft s st)) i Hph)
        as [Hph' [Hseen _]].
      split.
      * eexists. split; [apply (step_self ft i ts _ Hts) | exact Hph'].
      * rewrite (step_present ft i ts _ Hts). cbn [trace].
        rewrite by_thread_app, by_thread_own, Hseen, Htr.
        destruct (scheduled i s); now rewrite <- app_assoc.
    + rewrite (scheduled_snoc_other i j s Hij).
      destruct (step_other ft i j ts _ Hij Hts) as [Hts' Htr'].
      split; [eauto | now rewrite Htr'].
Qed.

Variable invocations : list call.
Variable m0 : mem.

Lemma pool_inv_boot :
  pool_inv ft invocations m0 [] (boot invocations m0).
Proof.
  constructor; cbn.
  - apply length_map.
  - intros i cb taskData status Hc. rewrite nth_error_map, Hc. cbn.
    eexists. split; [reflexivity | constructor].
  - reflexivity.
  - contradiction.
  - contradiction.
  - reflexivity.
Qed.

Lemma pool_inv_step (s : list nat) (j : nat) (st : machine) :
  pool_inv ft invocations m0 s st ->
  pool_inv ft invocations m0 (s ++ [j]) (step ft j st).
Proof.
  intros [Hlen Hthr Htr Hown Hinn Hmem].
  destruct (nth_error invocations j) as [[[cbj tdj] stj] |] eqn:Hj.
  - destruct (Hthr j cbj tdj stj Hj) as [ts [Hts Hph]].
    destruct (advance_bridge_phase ft cbj tdj stj _ ts (memory st) j Hph)
      as [Hph' [Hseen [Hnew [Hmem' Hins]]]].
    pose proof (step_present ft j ts st Hts) as Hstep.
    assert (Htrace : trace (step ft j st)
                     = trace st
                       ++ (if scheduled j s then []
                           else [(j, Called (cbj, tdj, stj))])).
    { rewrite Hstep. cbn [trace]. rewrite Hseen.
      now destruct (scheduled j s). }
    constructor.
    + rewrite Hstep. cbn [threads]. rewrite Hnew. cbn.
      now rewrite app_nil_r, length_update_nth.
    + intros i cb taskData status Hc.
      destruct (Nat.eq_dec i j) as [-> | Hij].
      * rewrite scheduled_snoc_same.
        assert (Heq : (cb, taskData, status) = (cbj, tdj, stj)) by congruence.
        injection Heq as -> -> ->.
        eexists. split; [apply (step_self ft j ts st Hts) | exact Hph'].
      * rewrite (scheduled_snoc_other i j s Hij).
        destruct (Hthr i cb taskData status Hc) as [ti [Hti Hphi]].
        exists ti. split; [| exact Hphi].
        apply (step_other ft i j ti st Hij Hti).
    + intros i c Hc. rewrite Htrace, by_thread_app, (Htr i c Hc).
      destruct (Nat.eq_dec i j) as [-> | Hij].
      * rewrite scheduled_snoc_same.
        assert (Heq : c = (cbj, tdj, stj)) by congruence. subst c.
        destruct (scheduled j s).
        -- reflexivity.
        -- apply (by_thread_own j [Called (cbj, tdj, stj)]).
      * rewrite (scheduled_snoc_other i j s Hij).
        destruct (scheduled j s); [cbn; apply app_nil_r |].
        change [(j, Called (cbj, tdj, stj))]
          with (List.map (pair j) [Called (cbj, tdj, stj)]).
        rewrite (by_thread_foreign i j _ Hij). apply app_nil_r.
    + intros k a Hin. rewrite Htrace in Hin.
      apply in_app_or in Hin as [Hin | Hin]; [auto |].
      destruct (scheduled j s); [contradiction |].
      destruct Hin as [Heq | []]. injection Heq as <- <-. eauto.
    + intros k a Hin. rewrite Hstep in Hin. cbn [inner] in Hin.
      apply in_app_or in Hin as [Hin | Hin].
      * destruct (Hinn k a Hin) as [cb [td [stt [f [Hc [Hf Hcall]]]]]].
        exists cb, td, stt, f. repeat split; auto.
        rewrite Htrace. apply in_or_app. now left.
      * apply in_map_iff in Hin as [a' [Heq Hin]].
        injection Heq as <- <-.
        destruct Hins as [Hran [f Hf]].
        { intros Hnil. rewrite Hnil in Hin. contradiction. }
        exists cbj, tdj, stj, f. repeat split; auto.
        rewrite Htrace. apply in_or_app. left.
        apply in_by_thread. rewrite (Htr j _ Hj), Hran. now left.
    + rewrite Hstep. cbn [memory inner].
      now rewrite replay_app, <- Hmem.
  - (* no such thread *)
    assert (Hnone : nth_error (threads st) j = None).
    { apply nth_error_None. rewrite Hlen. now apply nth_error_None. }
    rewrite (step_absent ft j st Hnone).
    assert (Hother : forall i c, nth_error invocations i = Some c -> i <> j)
      by (intros i c Hc ->; congruence).
    constructor; auto.
    + intros i cb taskData status Hc.
      rewrite (scheduled_snoc_other i j s (Hother i _ Hc)). auto.
    + intros i c Hc. rewrite (scheduled_snoc_other i j s (Hother i c Hc)).
      auto.
Qed.

Lemma pool_inv_run (s : list nat) :
  pool_inv ft invocations m0 s (run ft s (boot invocations m0)).
Proof.
  induction s as [| j s IH] using rev_ind.
  - apply pool_inv_boot.
  - rewrite run_app. cbn. now apply pool_inv_step.
Qed.

End BridgeThread.

Lemma returned_phase (ft : fn_table void1) (cb : RustTaskCallback)
    (taskData : void_ptr) (status : int8_t) (ran : bool)
    (ts : thread_state) :
  bridge_phase ft cb taskData status ran ts ->
  returned ts = true ->
  ran = true
  /\ exists f, lookup ft cb = Some f /\ Leaf tt (f taskData status).
Proof.
  intros [| f b Hf Hb | Hbad | f Hf Hleaf]; cbn; try discriminate.
  intros _. eauto.
Qed.

(** C4. The bridge makes its call synchronously, on the thread that
    called it, and returns only after the callee has returned, and then at
    once; it starts no work of its own. In a pool of concurrent
    invocations, with callees that run step by step on shared memory and
    may fault or never return, under any schedule: no thread is ever
    added; each call on record was made by the thread of the invocation it
    belongs to, and whatever a callee does it does on the thread that
    called it, after the call; the thread of an invocation stands where an
    invocation of the bridge can stand (call not yet made; inside the
    callee with only the return left to do; stopped in undefined behaviour;
    returned), it has returned only if its call is on record and went to a
    function that returns, and once what is left of the callee is its
    return, the next step of the thread returns from the bridge; and in the
    body of the bridge the call is followed by the return and by nothing
    else. *)
Theorem bridge_synchronous
    (ft : fn_table void1) (invocations : list call) (m : mem)
    (schedule : list nat) :
  length (threads (concurrently ft invocations m schedule))
  = length invocations
  /\ (forall j a,
        In (j, a) (trace (concurrently ft invocations m schedule)) ->
        exists c, nth_error invocations j = Some c /\ a = Called c)
  /\ (forall j a,
        In (j, a) (inner (concurrently ft invocations m schedule)) ->
        exists cb taskData status f,
          nth_error invocations j = Some (cb, taskData, status)
          /\ lookup ft cb = Some f
          /\ In (j, Called (cb, taskData, status))
                (trace (concurrently ft invocations m schedule)))
  /\ (forall i cb taskData status,
        nth_error invocations i = Some (cb, taskData, status) ->
        exists ts,
          nth_error (threads (concurrently ft invocations m schedule)) i
          = Some ts
          /\ bridge_phase ft cb taskData status (scheduled i schedule) ts
          /\ (returned ts = true ->
              In (i, Called (cb, taskData, status))
                 (trace (concurrently ft invocations m schedule))
              /\ exists f,
                  lookup ft cb = Some f /\ Leaf tt (f taskData status))
          /\ (forall b k,
                ts = Calling (cb, taskData, status) b k ->
                observe b = RetF tt ->
                exists ts',
                  nth_error
                    (threads
                       (step ft i (concurrently ft invocations m schedule)))
                    i
                  = Some ts'
                  /\ returned ts' = true))
  /\ (forall cb taskData status,
        observe (cgo_rust_task_callback_bridge_matrix_sdk_ffi (E := threadE)
                   cb taskData status)
        = VisF (inr1 (inr1 (CallIndirect cb taskData status)))
               (fun x => Ret x)).
Proof.
  destruct (pool_inv_run ft invocations m schedule)
    as [Hlen Hthr Htr Hown Hinn _].
  fold (concurrently ft invocations m schedule) in *.
  split; [exact Hlen | split; [exact Hown | split; [exact Hinn |]]].
  split; [| reflexivity].
  intros i cb taskData status Hc.
  destruct (Hthr i cb taskData status Hc) as [ts [Hts Hph]].
  exists ts. split; [exact Hts | split; [exact Hph | split]].
  - intros Hret.
    destruct (returned_phase ft cb taskData status _ ts Hph Hret)
      as [Hran Hf].
    split; [| exact Hf].
    apply in_by_thread. rewrite (Htr i _ Hc), Hran. now left.
  - intros b k -> Hobs.
    eexists. split; [apply (step_self ft i _ _ Hts) |].
    inversion Hph; subst. cbn. rewrite Hobs. reflexivity.
Qed.

(** C8. Invocations of the bridge that run concurrently, each with its own
    triple of callback, context and status, do not see each other. With
    callees that run step by step on the shared memory, so that
    invocations overlap, and under any schedule: the thread of an
    invocation makes no call before it runs and, once it has run, has made
    exactly one call, with its own triple; it then stands inside the
    function that its own callback designates, applied to its own context
    and status, or has stopped in undefined behaviour, or has returned;
    every call on record belongs to the invocation of the thread that made
    it; only the callees of calls on record act, each on the thread of its
    call; and the shared memory holds what the callees wrote and nothing
    else, the bridge having no state of its own. *)
Theorem bridge_reentrant
    (ft : fn_table void1) (invocations : list call) (m : mem)
    (schedule : list nat) (i : nat)
    (cb : RustTaskCallback) (taskData : void_ptr) (status : int8_t) :
  nth_error invocations i = Some (cb, taskData, status) ->
  by_thread i (trace (concurrently ft invocations m schedule))
  = (if scheduled i schedule then [Called (cb, taskData, status)] else [])
  /\ (exists ts,
        nth_error (threads (concurrently ft invocations m schedule)) i
        = Some ts
        /\ bridge_phase ft cb taskData status (scheduled i schedule) ts)
  /\ (forall j a,
        In (j, a) (trace (concurrently ft invocations m schedule)) ->
        exists c', nth_error invocations j = Some c' /\ a = Called c')
  /\ (forall j a,
        In (j, a) (inner (concurrently ft invocations m schedule)) ->
        exists cb' taskData' status' f,
          nth_error invocations j = Some (cb', taskData', status')
          /\ lookup ft cb' = Some f
          /\ In (j, Called (cb', taskData', status'))
                (trace (concurrently ft invocations m schedule)))
  /\ memory (concurrently ft invocations m schedule)
     = replay (inner (concurrently ft invocations m schedule)) m.
Proof.
  intros Hc.
  destruct (pool_inv_run ft invocations m schedule)
    as [_ Hthr Htr Hown Hinn Hmem].
  fold (concurrently ft invocations m schedule) in *.
  auto 6.
Qed.

(** Three invocations, the second through the null pointer, against a
    callable that writes twice to memory; the schedule runs the first and
    the third in turns, so that their callees overlap. *)
Lemma bridge_reentrant_witness :
  nth_error [(0x2000, 0x1000, int8_repr (-1));
             (NULL, 0x1008, int8_repr 1);
             (0x3000, 0x1010, int8_repr 2)] 2
  = Some (0x3000, 0x1010, int8_repr 2)
  /\ by_thread 2
       (trace (concurrently (table_of writer)
                 [(0x2000, 0x1000, int8_repr (-1));
                  (NULL, 0x1008, int8_repr 1);
                  (0x3000, 0x1010, int8_repr 2)]
                 (fun _ => 0) [0; 2; 0; 2; 1; 0; 2; 7]%nat))
     = [Called (0x3000, 0x1010, int8_repr 2)].
Proof.
  split; [reflexivity |].
  exact (proj1 (bridge_reentrant (table_of writer)
                  [(0x2000, 0x1000, int8_repr (-1));
                   (NULL, 0x1008, int8_repr 1);
                   (0x3000, 0x1010, int8_repr 2)]
                  (fun _ => 0) [0; 2; 0; 2; 1; 0; 2; 7]%nat 2
                  0x3000 0x1010 (int8_repr 2) eq_refl)).
Defined.

(** C9. The bridge is deterministic: what it does depends on its three
    arguments and on nothing else. Two invocations with the same callback,
    context and status make the same call, whatever the memory, whatever
    the functions behind the calls do, whichever other invocations run
    beside them and however the threads are scheduled, as soon as both have
    run; and two bounded runs against the recording callable end the same
    from any two memories and with any fuel beyond three steps. *)
Theorem bridge_deterministic
    (ft1 ft2 : fn_table void1) (invocations1 invocations2 : list call)
    (m1 m2 : mem) (schedule1 schedule2 : list nat) (i1 i2 : nat)
    (cb1 cb2 : RustTaskCallback) (taskData1 taskData2 : void_ptr)
    (status1 status2 : int8_t) :
  cb1 = cb2 -> taskData1 = taskData2 -> status1 = status2 ->
  nth_error invocations1 i1 = Some (cb1, taskData1, status1) ->
  nth_error invocations2 i2 = Some (cb2, taskData2, status2) ->
  scheduled i1 schedule1 = true ->
  scheduled i2 schedule2 = true ->
  first_call (cgo_rust_task_callback_bridge_matrix_sdk_ffi
                cb1 taskData1 status1)
  = first_call (cgo_rust_task_callback_bridge_matrix_sdk_ffi
                  cb2 taskData2 status2)
  /\ by_thread i1 (trace (concurrently ft1 invocations1 m1 schedule1))
     = by_thread i2 (trace (concurrently ft2 invocations2 m2 schedule2))
  /\ (forall log fuel1 fuel2,
        exec (S (S (S fuel1))) m1 log
             (link recording_table
                (cgo_rust_task_callback_bridge_matrix_sdk_ffi
                   cb1 taskData1 status1))
        = exec (S (S (S fuel2))) m2 log
               (link recording_table
                  (cgo_rust_task_callback_bridge_matrix_sdk_ffi
                     cb2 taskData2 status2))).
Proof.
  intros <- <- <- H1 H2 Hs1 Hs2. split; [reflexivity | split].
  - destruct (pool_inv_run ft1 invocations1 m1 schedule1)
      as [_ _ Htr1 _ _ _].
    destruct (pool_inv_run ft2 invocations2 m2 schedule2)
      as [_ _ Htr2 _ _ _].
    unfold concurrently.
    rewrite (Htr1 _ _ H1), (Htr2 _ _ H2), Hs1, Hs2. reflexivity.
  - intros log fuel1 fuel2.
    destruct (lookup recording_table cb1) as [f |] eqn:Hf.
    + assert (Hrec : f = recorder).
      { cbn in Hf. unfold recording_lookup in Hf.
        destruct (cb1 =? NULL); congruence. }
      subst f. now rewrite !exec_recorder.
    + now rewrite !exec_invalid.
Qed.

(** The same invocation, once alone and once as the second of two, from
    different memories, against a callable that writes to memory and
    against one that never returns. *)
Lemma bridge_deterministic_witness :
  by_thread 0
    (trace (concurrently (table_of writer)
              [(0x2000, 0x1000, int8_repr (-1))] (fun _ => 0) [0]%nat))
  = by_thread 1
      (trace (concurrently (table_of stuck)
                [(0x3000, NULL, int8_repr 0);
                 (0x2000, 0x1000, int8_repr (-1))]
                (fun _ => 7) [1; 0; 1]%nat)).
Proof.
  exact (proj1 (proj2 (bridge_deterministic
    (table_of writer) (table_of stuck)
    [(0x2000, 0x1000, int8_repr (-1))]
    [(0x3000, NULL, int8_repr 0); (0x2000, 0x1000, int8_repr (-1))]
    (fun _ => 0) (fun _ => 7) [0]%nat [1; 0; 1]%nat 0 1
    0x2000 0x2000 0x1000 0x1000 (int8_repr (-1)) (int8_repr (-1))
    eq_refl eq_refl eq_refl eq_refl eq_refl eq_refl eq_refl))).
Defined.

(** ** What the pool semantics tells apart *)

(** Three concurrent invocations against a callable that writes twice: the
    callees of the first and the third overlap, the second, through the
    null pointer, stops in undefined behaviour and does not return. *)
Example bridge_pool_overlap :
  let st := concurrently (table_of writer)
              [(0x2000, 0x1000, int8_repr (-1));
               (NULL, 0x1008, int8_repr 1);
               (0x3000, 0x1010, int8_repr 2)]
              (fun _ => 0) [0; 2; 0; 2; 1; 0; 2; 0; 2; 1]%nat in
  inner st = [(0%nat, Stored 0x1000 255); (2%nat, Stored 0x1010 2);
              (0%nat, Stored 0x1001 255); (2%nat, Stored 0x1011 2)]
  /\ List.map returned (threads st) = [true; false; true]
  /\ nth_error (threads st) 1 = Some (Faulted (NULL, 0x1008, int8_repr 1)).
Proof. repeat split. Qed.

(** Through a pointer that designates no function, or to a function that
    never returns, no invocation of the bridge returns, under any
    schedule. *)
Lemma bridge_pool_no_return
    (ft : fn_table void1) (invocations : list call) (m : mem)
    (schedule : list nat) (i : nat)
    (cb : RustTaskCallback) (taskData : void_ptr) (status : int8_t)
    (ts : thread_state) :
  nth_error invocations i = Some (cb, taskData, status) ->
  lookup ft cb = None \/ lookup ft cb = Some stuck ->
  nth_error (threads (concurrently ft invocations m schedule)) i = Some ts ->
  returned ts = false.
Proof.
  intros Hc Hcb Hts.
  destruct (pool_inv_run ft invocations m schedule) as [_ Hthr _ _ _ _].
  destruct (Hthr i cb taskData status Hc) as [ts' [Hts' Hph]].
  assert (Heq : ts' = ts).
  { pose proof (eq_trans (eq_sym Hts') Hts) as H. now injection H. }
  subst ts'.
  destruct (returned ts) eqn:Hret; [exfalso | reflexivity].
  destruct (returned_phase ft cb taskData status _ ts Hph Hret)
    as [_ [f [Hf Hleaf]]].
  destruct Hcb as [Hnone | Hstuck]; [congruence |].
  assert (f = stuck) by congruence. subst f.
  now apply spin_empty_Leaf in Hleaf.
Qed.

(** The same on one schedule, by running the pool. *)
Example bridge_pool_stuck :
  List.map returned
    (threads (concurrently (table_of stuck)
                [(0x2000, 0x1000, int8_repr (-1));
                 (0x3000, 0x1010, int8_repr 2)]
                (fun _ => 0) [0; 1; 0; 1; 0; 1; 0; 1; 0; 1]%nat))
  = [false; false].
Proof. reflexivity. Qed.

(** Two invocations of the parking bridge interleaved: the first calls its
    callback with the context of the second. No schedule does this to the
    bridge itself. *)
Example parking_bridge_not_reentrant :
  by_thread 0
    (trace (run (table_of writer) [0; 1; 0; 0]%nat
              (mk_machine
                 [Running (parking_bridge 64 (0x2000, 0x1000, int8_repr (-1)));
                  Running (parking_bridge 64 (0x3000, 0x1008, int8_repr 1))]
                 (fun _ => 0) [] [])))
  = [Stored 64 0x1000; Loaded 64; Called (0x2000, 0x1008, int8_repr (-1))].
Proof. reflexivity. Qed.

(** ** The bridge called again and again *)

Lemma undefined_bind {F : Type -> Type} {R S : Type}
    (k : R -> itree (worldE F) S) :
  ITree.bind (undefined (F := F)) k ≈ undefined.
Proof.
  unfold undefined. rewrite bind_vis.
  apply eqit_Vis. intros [].
Qed.

Lemma link_bind {F : Type -> Type} (ft : fn_table F) {R S : Type}
    (t : itree cE R) (k : R -> itree cE S) :
  link ft (ITree.bind t k) ≈ ITree.bind (link ft t) (fun x => link ft (k x)).
Proof.
  unfold link. rewrite interp_bind. reflexivity.
Qed.

Lemma link_eutt {F : Type -> Type} (ft : fn_table F) {R : Type}
    (t u : itree cE R) :
  t ≈ u -> link ft t ≈ link ft u.
Proof.
  intros Htu. unfold link. now rewrite Htu.
Qed.

Lemma invoke_all_app (l1 l2 : list call) :
  invoke_all (l1 ++ l2) ≈ (invoke_all l1;; invoke_all l2).
Proof.
  induction l1 as [| [[cb taskData] status] l1 IH]; cbn.
  - rewrite bind_ret_l. reflexivity.
  - rewrite bind_bind. setoid_rewrite IH. reflexivity.
Qed.

(** X1. Successive calls of the bridge compose: linked against a table of
    functions, a caller that invokes the bridge for each call of a list is
    the functions behind these calls run in the order of the list, each on
    its own arguments, up to the first pointer that designates no function;
    nothing is kept from one call to the next. *)
Theorem bridge_sequence_linked
    (F : Type -> Type) (ft : fn_table F) (cs : list call) :
  link ft (invoke_all cs) ≈ callees_of ft cs.
Proof.
  induction cs as [| [[cb taskData] status] cs IH]; cbn.
  - unfold link. rewrite interp_ret. reflexivity.
  - rewrite link_bind, link_bridge. cbn.
    destruct (lookup ft cb) as [f |].
    + setoid_rewrite IH. reflexivity.
    + apply undefined_bind.
Qed.

(** X2. A call through a pointer that designates no function ends a sequence
    of calls of the bridge: the calls before it are made, and whatever calls
    were to follow make no difference. *)
Theorem bridge_sequence_cut_at_invalid
    (F : Type -> Type) (ft : fn_table F) (before after : list call)
    (cb : RustTaskCallback) (taskData : void_ptr) (status : int8_t) :
  lookup ft cb = None ->
  link ft (invoke_all (before ++ (cb, taskData, status) :: after))
  ≈ (link ft (invoke_all before);; undefined).
Proof.
  intros Hcb.
  rewrite (link_eutt ft _ _ (invoke_all_app before _)), link_bind.
  apply eqit_bind; [reflexivity |]. intros [].
  rewrite bridge_sequence_linked. cbn. rewrite Hcb. reflexivity.
Qed.

Lemma bridge_sequence_cut_at_invalid_witness :
  lookup recording_table NULL = None
  /\ link recording_table
       (invoke_all [(0x2000, 0x1000, int8_repr (-1));
                    (NULL, 0x1008, int8_repr 1);
                    (0x3000, 0x1010, int8_repr 2)])
     ≈ (link recording_table (invoke_all [(0x2000, 0x1000, int8_repr (-1))]);;
        undefined).
Proof.
  split; [reflexivity |].
  exact (bridge_sequence_cut_at_invalid obsE recording_table
           [(0x2000, 0x1000, int8_repr (-1))]
           [(0x3000, 0x1010, int8_repr 2)]
           NULL 0x1008 (int8_repr 1) eq_refl).
Defined.

Lemma exec_bridge_then (ft : fn_table obsE) cb taskData status
    (rest : itree cE unit) m log fuel :
  lookup ft cb = Some recorder ->
  exec (S (S fuel)) m log
    (link ft (cgo_rust_task_callback_bridge_matrix_sdk_ffi cb taskData status;;
              rest))
  = exec fuel m (log ++ [(taskData, status)]) (link ft rest).
Proof.
  intros Hf. destruct fuel; lazy -[lookup app]; rewrite Hf; reflexivity.
Qed.

Lemma exec_bridge_invalid_then (ft : fn_table obsE) cb taskData status
    (rest : itree cE unit) m log fuel :
  lookup ft cb = None ->
  exec (S fuel) m log
    (link ft (cgo_rust_task_callback_bridge_matrix_sdk_ffi cb taskData status;;
              rest))
  = (log, UndefinedBehaviour).
Proof.
  intros Hf. lazy -[lookup app]. rewrite Hf. reflexivity.
Qed.

Lemma fuel_two_more (n fuel : nat) :
  (2 * S n + fuel = S (S (2 * n + fuel)))%nat.
Proof. lia. Qed.

Lemma exec_invoke_all_then (cs rest : list call) m log fuel :
  Forall (fun c : call => fst (fst c) <> NULL) cs ->
  exec (2 * length cs + fuel) m log
       (link recording_table (invoke_all (cs ++ rest)))
  = exec fuel m (log ++ records_of cs)
         (link recording_table (invoke_all rest)).
Proof.
  intros Hcs. revert log.
  induction Hcs as [| [[cb taskData] status] cs Hcb Hcs IH]; intros log.
  - cbn. now rewrite app_nil_r.
  - cbn [length]. rewrite fuel_two_more.
    cbn [app invoke_all].
    rewrite exec_bridge_then by (apply recording_lookup_valid, Hcb).
    rewrite IH. cbn. now rewrite <- app_assoc.
Qed.

(** X3. A recording callable called through the bridge once for each call of a
    list has, at the end, one record for each call, in the order of the
    calls, and two steps for each call and one more are enough for the run
    to return. When a null callback follows these calls, the run ends in
    undefined behaviour with the same records, whatever calls come after
    it. *)
Theorem bridge_sequence_recorded (cs : list call) (m : mem)
    (log : list (void_ptr * int8_t)) (fuel : nat) :
  Forall (fun c : call => fst (fst c) <> NULL) cs ->
  exec (2 * length cs + S fuel) m log
       (link recording_table (invoke_all cs))
  = (log ++ records_of cs, Returned)
  /\ (forall taskData status after,
        exec (2 * length cs + S fuel) m log
             (link recording_table
                (invoke_all (cs ++ (NULL, taskData, status) :: after)))
        = (log ++ records_of cs, UndefinedBehaviour)).
Proof.
  intros Hcs. split.
  - rewrite <- (app_nil_r cs) at 2.
    rewrite (exec_invoke_all_then cs [] m log (S fuel) Hcs). reflexivity.
  - intros taskData status after.
    rewrite (exec_invoke_all_then cs _ m log (S fuel) Hcs).
    cbn [invoke_all]. now apply exec_bridge_invalid_then.
Qed.

Lemma bridge_sequence_recorded_witness :
  Forall (fun c : call => fst (fst c) <> NULL)
         [(0x2000, 0x1000, int8_repr (-1)); (0x3000, NULL, int8_repr 0)]
  /\ exec 5 (fun _ => 0) []
       (link recording_table
          (invoke_all [(0x2000, 0x1000, int8_repr (-1));
                       (0x3000, NULL, int8_repr 0)]))
     = ([(0x1000, int8_repr (-1)); (NULL, int8_repr 0)], Returned).
Proof.
  assert (H : Forall (fun c : call => fst (fst c) <> NULL)
                [(0x2000, 0x1000, int8_repr (-1));
                 (0x3000, NULL, int8_repr 0)])
    by (repeat constructor; discriminate).
  split; [exact H |].
  exact (proj1 (bridge_sequence_recorded
                  [(0x2000, 0x1000, int8_repr (-1));
                   (0x3000, NULL, int8_repr 0)]
                  (fun _ => 0) [] O H)).
Defined.

(** ** The bridge beside arbitrary threads *)

(** X4. The bridge is not disturbed by its neighbours. In any pool, beside
    threads that do anything at all (write to memory, the cell the context
    points to included, start other threads, make calls of their own),
    with callees that run step by step and may fault or never return, and
    under any schedule, a thread that was about to call the bridge makes no
    call as long as it has not run and, once it has run, has made exactly
    the call of its own arguments; it then stands inside the function that
    its callback designates, or has stopped in undefined behaviour, or has
    returned, and it has returned only if its callback designates a
    function that returns on its arguments. *)
Theorem bridge_isolated
    (ft : fn_table void1) (st : machine) (schedule : list nat) (i : nat)
    (cb : RustTaskCallback) (taskData : void_ptr) (status : int8_t) :
  nth_error (threads st) i
  = Some (Running (cgo_rust_task_callback_bridge_matrix_sdk_ffi
                     cb taskData status)) ->
  by_thread i (trace (run ft schedule st))
  = by_thread i (trace st)
    ++ (if scheduled i schedule then [Called (cb, taskData, status)] else [])
  /\ exists ts,
      nth_error (threads (run ft schedule st)) i = Some ts
      /\ bridge_phase ft cb taskData status (scheduled i schedule) ts
      /\ (returned ts = true ->
          scheduled i schedule = true
          /\ exists f, lookup ft cb = Some f /\ Leaf tt (f taskData status)).
Proof.
  intros Hi.
  destruct (bridge_thread_run ft st schedule i cb taskData status Hi)
    as [[ts [Hts Hph]] Htr].
  split; [exact Htr |].
  exists ts. split; [exact Hts | split; [exact Hph |]].
  now apply returned_phase.
Qed.

(** The bridge between a thread that parks contexts in the cell its
    context points to and one that writes to that cell. *)
Lemma bridge_isolated_witness :
  nth_error
    [Running (parking_bridge 0x1000 (0x3000, 0x1008, int8_repr 1));
     Running (invoke (0x2000, 0x1000, int8_repr (-1)));
     Running (trigger (Store 0x1000 9))] 1
  = Some (Running (cgo_rust_task_callback_bridge_matrix_sdk_ffi
                     0x2000 0x1000 (int8_repr (-1))))
  /\ by_thread 1
       (trace (run (table_of writer) [0; 2; 0; 1; 0; 1]%nat
                 (mk_machine
                    [Running (parking_bridge 0x1000
                                (0x3000, 0x1008, int8_repr 1));
                     Running (invoke (0x2000, 0x1000, int8_repr (-1)));
                     Running (trigger (Store 0x1000 9))]
                    (fun _ => 0) [] [])))
     = [Called (0x2000, 0x1000, int8_repr (-1))].
Proof.
  split; [reflexivity |].
  exact (proj1 (bridge_isolated (table_of writer)
                  (mk_machine
                     [Running (parking_bridge 0x1000
                                 (0x3000, 0x1008, int8_repr 1));
                      Running (invoke (0x2000, 0x1000, int8_repr (-1)));
                      Running (trigger (Store 0x1000 9))]
                     (fun _ => 0) [] [])
                  [0; 2; 0; 1; 0; 1]%nat 1
                  0x2000 0x1000 (int8_repr (-1)) eq_refl)).
Defined.

(** ** A pool of invocations run to the end *)

Lemma in_calls_from (k i : nat) (a : action) (l : list call) :
  In (i, a) (combine (seq k (length l)) (List.map Called l))
  <-> exists c, (k <= i)%nat /\ nth_error l (i - k) = Some c /\ a = Called c.
Proof.
  revert k; induction l as [| c0 l IH]; intros k; cbn.
  - split; [contradiction |]. intros [c [_ [Hc _]]].
    destruct (i - k)%nat; discriminate.
  - rewrite IH. split.
    + intros [Heq | [c [Hk [Hc Ha]]]].
      * inversion Heq; subst. exists c0.
        rewrite Nat.sub_diag. auto.
      * exists c. replace (i - k)%nat with (S (i - S k)) by lia.
        split; [lia | auto].
    + intros [c [Hk [Hc Ha]]].
      destruct (Nat.eq_dec i k) as [-> | Hik].
      * rewrite Nat.sub_diag in Hc. cbn in Hc. left. congruence.
      * right. exists c.
        replace (i - k)%nat with (S (i - S k)) in Hc by lia.
        split; [lia | auto].
Qed.

Lemma in_calls_expected (i : nat) (a : action) (invocations : list call) :
  In (i, a) (calls_expected invocations)
  <-> exists c, nth_error invocations i = Some c /\ a = Called c.
Proof.
  unfold calls_expected. rewrite in_calls_from.
  rewrite Nat.sub_0_r. split.
  - intros [c [_ H]]. eauto.
  - intros [c H]. exists c. split; [lia | exact H].
Qed.

Lemma NoDup_calls_from (k : nat) (l : list call) :
  NoDup (combine (seq k (length l)) (List.map Called l)).
Proof.
  revert k; induction l as [| c0 l IH]; intros k; cbn; constructor.
  - rewrite in_calls_from. intros [c [Hk _]]. lia.
  - apply IH.
Qed.

Lemma NoDup_by_thread (tr : list (nat * action)) :
  (forall i, (length (by_thread i tr) <= 1)%nat) -> NoDup tr.
Proof.
  induction tr as [| [i a] tr IH]; intros Hone; constructor.
  - intros Hin. apply in_by_thread in Hin.
    specialize (Hone i). unfold by_thread in Hone, Hin. cbn in Hone.
    rewrite Nat.eqb_refl in Hone. cbn in Hone.
    destruct (List.map snd (filter (fun e => Nat.eqb (fst e) i) tr));
      [contradiction | cbn in Hone; lia].
  - apply IH. intros j. specialize (Hone j).
    unfold by_thread in *. cbn in Hone.
    destruct (Nat.eqb i j); cbn in Hone; lia.
Qed.

Lemma turns_snoc (i j : nat) (s : list nat) :
  turns i (s ++ [j]) = (turns i s + (if Nat.eq_dec j i then 1 else 0))%nat.
Proof.
  unfold turns. rewrite count_occ_app. cbn.
  now destruct (Nat.eq_dec j i).
Qed.

Lemma turns_scheduled (i : nat) (s : list nat) :
  (1 <= turns i s)%nat -> scheduled i s = true.
Proof.
  intros Hturns. apply existsb_exists. exists i. split.
  - apply (count_occ_In Nat.eq_dec). exact Hturns.
  - apply Nat.eqb_refl.
Qed.

Lemma run_all_returned (ft : fn_table void1) (s : list nat) (st : machine) :
  Forall (fun ts => returned ts = true) (threads st) ->
  run ft s st = st.
Proof.
  intros Hall. induction s as [| j s IH]; cbn; [reflexivity |].
  assert (Hstep : step ft j st = st).
  { destruct (nth_error (threads st) j) as [ts |] eqn:Hj;
      [| now apply step_absent].
    apply (step_stay ft j ts st Hj).
    apply nth_error_In in Hj.
    rewrite Forall_forall in Hall. specialize (Hall ts Hj).
    destruct ts as [t | c b k | c]; cbn in Hall; try discriminate.
    cbn. destruct (observe t); [reflexivity | discriminate | discriminate]. }
  now rewrite Hstep.
Qed.

(** The thread of an invocation whose callee returns within [n] steps. *)
Lemma bridge_thread_progress (ft : fn_table void1) (st : machine) (i : nat)
    (cb : RustTaskCallback) (taskData : void_ptr) (status : int8_t)
    (f : callee void1) (n : nat) (s : list nat) :
  nth_error (threads st) i
  = Some (Running (cgo_rust_task_callback_bridge_matrix_sdk_ffi
                     cb taskData status)) ->
  lookup ft cb = Some f ->
  returns_within n (f taskData status) ->
  match turns i s with
  | O =>
      nth_error (threads (run ft s st)) i
      = Some (Running (cgo_rust_task_callback_bridge_matrix_sdk_ffi
                         cb taskData status))
  | S k =>
      nth_error (threads (run ft s st)) i = Some (Running (Ret tt))
      \/ exists b,
          nth_error (threads (run ft s st)) i
          = Some (Calling (cb, taskData, status) b (fun x => Ret x))
          /\ returns_within (n - k) b /\ (k <= n)%nat
  end.
Proof.
  intros Hi Hf Hn. induction s as [| j s IH] using rev_ind.
  - exact Hi.
  - rewrite turns_snoc, run_app. cbn [run].
    destruct (Nat.eq_dec j i) as [-> | Hji].
    + rewrite Nat.add_1_r.
      destruct (turns i s) as [| k].
      * (* the call *)
        right. exists (f taskData status).
        rewrite (step_self ft i _ _ IH). cbn. rewrite Hf.
        rewrite Nat.sub_0_r. split; [reflexivity | split; [exact Hn | lia]].
      * destruct IH as [Hret | [b [Hb [Hrw Hk]]]].
        -- left. rewrite (step_self ft i _ _ Hret). reflexivity.
        -- rewrite (step_self ft i _ _ Hb).
           inversion Hrw as [n0 b0 Hobs | n0 b0 b' Hobs Hrw' | n0 b0 X e kb Hobs Hrw'];
             subst; unfold advance; rewrite Hobs.
           ++ left. reflexivity.
           ++ right. exists b'. cbn.
              replace (n - S k)%nat with n0 by lia.
              split; [reflexivity | split; [exact Hrw' | lia]].
           ++ right. destruct e as [p | p v]; cbn.
              ** exists (kb (memory (run ft s st) p)).
                 replace (n - S k)%nat with n0 by lia.
                 split; [reflexivity | split; [apply Hrw' | lia]].
              ** exists (kb tt).
                 replace (n - S k)%nat with n0 by lia.
                 split; [reflexivity | split; [apply Hrw' | lia]].
    + rewrite Nat.add_0_r.
      assert (Hij : i <> j) by congruence.
      destruct (turns i s) as [| k].
      * apply (step_other ft i j _ _ Hij IH).
      * destruct IH as [Hret | [b [Hb Hrest]]].
        -- left. apply (step_other ft i j _ _ Hij Hret).
        -- right. exists b. split; [| exact Hrest].
           apply (step_other ft i j _ _ Hij Hb).
Qed.

Lemma writer_returns (taskData : void_ptr) (status : int8_t) :
  returns_within 2 (writer taskData status).
Proof.
  apply returns_after_mem
    with (e := Store taskData (int8_unsigned status))
         (kb := fun x : unit =>
                  ITree.bind (Ret x)
                    (fun _ : unit =>
                       (trigger (Store (taskData + 1) (int8_unsigned status))
                        : body)));
    [reflexivity | intros x].
  apply returns_after_mem
    with (e := Store (taskData + 1) (int8_unsigned status))
         (kb := fun x : unit => (Ret x : body));
    [reflexivity | intros []].
  now apply returns_now.
Qed.

(** X5. When every one of a pool of concurrent invocations has had its
    turn, in whatever order and however often, the calls made are the calls
    of the invocations, each once and each by its own thread: none is lost,
    none is made twice and none is made up. When moreover every callback
    designates a function that returns within [n] steps and every thread
    has had [n + 2] turns (one for the call, [n] for the callee, one for the
    return), every thread has returned from the bridge, and stepping the
    pool further changes nothing: no callback is called again later. *)
Theorem bridge_pool_complete
    (ft : fn_table void1) (invocations : list call) (m : mem)
    (schedule : list nat) :
  (forall i, (i < length invocations)%nat -> scheduled i schedule = true) ->
  Permutation
    (trace (concurrently ft invocations m schedule))
    (calls_expected invocations)
  /\ (forall n,
        (forall i cb taskData status,
            nth_error invocations i = Some (cb, taskData, status) ->
            exists f,
              lookup ft cb = Some f
              /\ returns_within n (f taskData status)) ->
        (forall i, (i < length invocations)%nat ->
                   (n + 2 <= turns i schedule)%nat) ->
        Forall (fun ts => returned ts = true)
               (threads (concurrently ft invocations m schedule))
        /\ (forall more,
              concurrently ft invocations m (schedule ++ more)
              = concurrently ft invocations m schedule)).
Proof.
  intros Hall.
  destruct (pool_inv_run ft invocations m schedule)
    as [Hlen Hthr Htr Hown _ _].
  fold (concurrently ft invocations m schedule) in *.
  split.
  - apply NoDup_Permutation.
    + apply NoDup_by_thread. intros i.
      destruct (nth_error invocations i) as [c |] eqn:Hc.
      * rewrite (Htr i c Hc). destruct (scheduled i schedule); cbn; lia.
      * destruct (by_thread i (trace (concurrently ft invocations m schedule)))
          as [| a l] eqn:Hby; [cbn; lia |].
        assert (Hin : In (i, a)
                        (trace (concurrently ft invocations m schedule))).
        { apply in_by_thread. rewrite Hby. now left. }
        apply Hown in Hin as [c' [Hc' _]]. congruence.
    + apply NoDup_calls_from.
    + intros [i a]. rewrite in_calls_expected. split.
      * apply Hown.
      * intros [c [Hc ->]]. apply in_by_thread.
        rewrite (Htr i c Hc), Hall; [now left |].
        apply nth_error_Some. congruence.
  - intros n Hfun Hturns.
    assert (Hret : Forall (fun ts => returned ts = true)
                     (threads (concurrently ft invocations m schedule))).
    { apply Forall_forall. intros ts Hin.
      apply In_nth_error in Hin as [i Hi].
      assert (Hlt : (i < length invocations)%nat).
      { rewrite <- Hlen. apply nth_error_Some.
        intros Hnone. discriminate (eq_trans (eq_sym Hi) Hnone). }
      destruct (nth_error invocations i) as [[[cb taskData] status] |] eqn:Hc;
        [| apply nth_error_None in Hc; lia].
      destruct (Hfun i cb taskData status Hc) as [f [Hf Hn]].
      assert (Hboot : nth_error (threads (boot invocations m)) i
                      = Some (Running
                                (cgo_rust_task_callback_bridge_matrix_sdk_ffi
                                   cb taskData status))).
      { cbn. now rewrite nth_error_map, Hc. }
      pose proof (bridge_thread_progress ft (boot invocations m) i
                    cb taskData status f n schedule Hboot Hf Hn) as Hprog.
      specialize (Hturns i Hlt).
      fold (concurrently ft invocations m schedule) in Hprog.
      destruct (turns i schedule) as [| k]; [lia |].
      destruct Hprog as [Hdone | [b [_ [_ Hk]]]]; [| lia].
      pose proof (eq_trans (eq_sym Hi) Hdone) as Heq.
      injection Heq as ->. reflexivity. }
    split; [exact Hret |].
    intros more. unfold concurrently. rewrite run_app.
    now apply run_all_returned.
Qed.

(** Two invocations against the callable that writes twice; each thread
    has four turns. *)
Lemma bridge_pool_complete_witness :
  (forall i, (i < 2)%nat -> scheduled i [0; 1; 0; 1; 1; 0; 0; 1]%nat = true)
  /\ Permutation
       (trace (concurrently (table_of writer)
                 [(0x2000, 0x1000, int8_repr (-1));
                  (0x3000, 0x1010, int8_repr 2)]
                 (fun _ => 0) [0; 1; 0; 1; 1; 0; 0; 1]%nat))
       [(0%nat, Called (0x2000, 0x1000, int8_repr (-1)));
        (1%nat, Called (0x3000, 0x1010, int8_repr 2))]
  /\ Forall (fun ts => returned ts = true)
       (threads (concurrently (table_of writer)
                   [(0x2000, 0x1000, int8_repr (-1));
                    (0x3000, 0x1010, int8_repr 2)]
                   (fun _ => 0) [0; 1; 0; 1; 1; 0; 0; 1]%nat)).
Proof.
  assert (H : forall i,
             (i < 2)%nat ->
             scheduled i [0; 1; 0; 1; 1; 0; 0; 1]%nat = true).
  { intros i Hi. destruct i as [| [| i]]; [reflexivity | reflexivity | lia]. }
  pose proof (bridge_pool_complete (table_of writer)
                [(0x2000, 0x1000, int8_repr (-1));
                 (0x3000, 0x1010, int8_repr 2)]
                (fun _ => 0) [0; 1; 0; 1; 1; 0; 0; 1]%nat H) as [Hperm Hlive].
  split; [exact H | split; [exact Hperm |]].
  apply (Hlive 2%nat).
  - intros i cb taskData status Hc. exists writer.
    split; [| apply writer_returns].
    destruct i as [| [| i]]; cbn in Hc.
    + injection Hc as <- _ _. reflexivity.
    + injection Hc as <- _ _. reflexivity.
    + destruct i; discriminate.
  - intros i Hi.
    destruct i as [| [| i]];
      [vm_compute; lia | vm_compute; lia | cbn in Hi; lia].
Defined.
